(** * fastify-plugin-storagely: the plugin's lifecycle glue, embedded in Rocq

    The repository is one source file, [src/index.ts]: a Fastify plugin that
    builds one [unstorage] storage, decorates the server and the request with
    it (raw handle, prefix factory, snapshot tool) and tears it down in an
    [onClose] hook.

    Layout of this file:
    - the effect monad the asynchronous code runs in (state and exceptions);
    - the [unstorage] and Fastify interfaces the plugin calls into;
    - the plugin's own functions, one definition per source function;
    - a spy that records the calls a storage and a callback receive;
    - an in-memory engine;
    - the theorems. *)

From Stdlib Require Import Ascii.
From stdpp Require Import gmap strings list fin_maps.

Set Default Proof Using "Type".
Open Scope string_scope.
Open Scope list_scope.

(* ================================================================= *)
(** ** Effects: state passing with exceptions *)

(** What a JavaScript exception carries; the plugin never inspects it. *)
Definition Err := string.

(** The completion of a call: a normal return or a throw (for an awaited
    promise: fulfilled or rejected). *)
Inductive Outcome (A : Type) : Type :=
| Returned (a : A)
| Threw (e : Err).
Arguments Returned {A} a.
Arguments Threw {A} e.

(** A computation over a world [S]. Every [await] of the source is a
    sequencing point of this monad. *)
Definition Eff (S A : Type) : Type := S -> Outcome A * S.

Definition ret {S A} (a : A) : Eff S A := fun s => (Returned a, s).

Definition throw {S A} (e : Err) : Eff S A := fun s => (Threw e, s).

Definition bind {S A B} (m : Eff S A) (k : A -> Eff S B) : Eff S B :=
  fun s =>
    match m s with
    | (Returned a, s') => k a s'
    | (Threw e, s') => (Threw e, s')
    end.

Declare Scope eff_scope.
Delimit Scope eff_scope with eff.
Bind Scope eff_scope with Eff.
Notation "x <- m ;; k" := (bind m (fun x => k))
  (at level 100, m at next level, right associativity) : eff_scope.
Notation "m ;; k" := (bind m (fun _ => k))
  (at level 100, right associativity) : eff_scope.
Open Scope eff_scope.

(** [try { body } finally { fin }]: [fin] runs whatever [body] did. When
    [fin] completes normally the statement completes as [body] did; when
    [fin] throws, its exception replaces the completion of [body]. *)
Definition try_finally {S A} (body : Eff S A) (fin : Eff S unit) : Eff S A :=
  fun s =>
    match body s with
    | (r, s1) =>
        match fin s1 with
        | (Returned _, s2) => (r, s2)
        | (Threw e, s2) => (Threw e, s2)
        end
    end.

(** [for (const x of xs) { await body(x) }] over an array that the loop
    does not modify. *)
Fixpoint for_of {S A} (xs : list A) (body : A -> Eff S unit) : Eff S unit :=
  match xs with
  | [] => ret tt
  | x :: rest => body x ;; for_of rest body
  end.

(** A left-to-right fold with effects. *)
Fixpoint foldM {S A B} (f : B -> A -> Eff S B) (acc : B) (xs : list A) : Eff S B :=
  match xs with
  | [] => ret acc
  | x :: rest => acc' <- f acc x ;; foldM f acc' rest
  end.

(* ================================================================= *)
(** ** The [unstorage] interface *)

(** Stored values: the primitives, and an object or array by its JSON
    text. A read of a missing key gives [VNull]. *)
Inductive StorageValue : Type :=
| VNull
| VString (s : string)
| VNumber (n : Z)
| VBool (b : bool)
| VObject (json : string).

(** An entry of [storage.getMounts()]: the mount point and its driver
    (by name; the plugin only reads [base]). *)
Record Mount : Type := mkMount { base : string; driver : string }.

(** [Snapshot = Record<string, StorageValue>]. *)
Abbreviation Snapshot := (gmap string StorageValue).

(** The methods of [Storage] that the plugin or its users call. A storage
    is an object of methods over the world [S]. *)
Record Storage (S : Type) : Type := mkStorage {
  getItem : string -> Eff S StorageValue;
  setItem : string -> StorageValue -> Eff S unit;
  removeItem : string -> Eff S unit;
  getKeys : string -> Eff S (list string);
  unwatch : Eff S unit;
  getMounts : string -> Eff S (list Mount);
  unmount : string -> bool -> Eff S unit;
  dispose : Eff S unit
}.
Arguments getItem {S} _ _ _.
Arguments setItem {S} _ _ _ _.
Arguments removeItem {S} _ _ _.
Arguments getKeys {S} _ _ _.
Arguments unwatch {S} _ _.
Arguments getMounts {S} _ _ _.
Arguments unmount {S} _ _ _ _.
Arguments dispose {S} _ _.

(** [CreateStorageOptions]: the driver selection, by name. *)
Record CreateStorageOptions : Type := mkCreateStorageOptions {
  opt_driver : option string
}.

(** What [src/index.ts] imports from ['unstorage']. The engine is not part
    of the repository: the plugin is written against this interface. *)
Record Unstorage (S : Type) : Type := mkUnstorage {
  createStorage : CreateStorageOptions -> Eff S (Storage S);
  prefixStorage : Storage S -> string -> Eff S (Storage S);
  snapshot : Storage S -> string -> Eff S Snapshot;
  restoreSnapshot : Storage S -> Snapshot -> option string -> Eff S unit
}.
Arguments createStorage {S} _ _ _.
Arguments prefixStorage {S} _ _ _ _.
Arguments snapshot {S} _ _ _ _.
Arguments restoreSnapshot {S} _ _ _ _ _.

(* ================================================================= *)
(** ** The plugin's types *)

(** [FastifyStoragelyOptions extends CreateStorageOptions]: the engine's
    options plus the optional [close] callback. *)
Record FastifyStoragelyOptions (S : Type) : Type := mkOptions {
  storage_options : CreateStorageOptions;
  close : option (Eff S unit)
}.
Arguments storage_options {S} _.
Arguments close {S} _.

(** [StoragelySnapshotReturn]: a function with a [restore] property. The
    call signature is the field [take]. *)
Record StoragelySnapshotReturn (S : Type) : Type := mkSnapshotReturn {
  take : string -> Eff S Snapshot;
  restore : Snapshot -> option string -> Eff S unit
}.
Arguments take {S} _ _ _.
Arguments restore {S} _ _ _ _.

(* ================================================================= *)
(** ** The host: a Fastify instance *)

(** The values the plugin hands to [decorate]. *)
Inductive Decorated (S : Type) : Type :=
| DStorage (s : Storage S)
| DPrefix (f : string -> Eff S (Storage S))
| DSnapshot (t : StoragelySnapshotReturn S).
Arguments DStorage {S} s.
Arguments DPrefix {S} f.
Arguments DSnapshot {S} t.

(** The second argument of [decorate]: a value, or [{ getter }]. *)
Inductive Decoration (S : Type) : Type :=
| Plain (v : Decorated S)
| Getter (getter : unit -> Decorated S).
Arguments Plain {S} v.
Arguments Getter {S} getter.

(** Modelled from the spec: the host server, which is not part of the
    repository. It has two extension points, the server-level and the
    request-level decorations, and a registry of shutdown hooks. *)
Record Fastify (S : Type) : Type := mkFastify {
  decorators : gmap string (Decoration S);
  requestDecorators : gmap string (Decoration S);
  onCloseHooks : list (Eff S unit)
}.
Arguments decorators {S} _.
Arguments requestDecorators {S} _.
Arguments onCloseHooks {S} _.

(** The state registration runs in: the server being decorated and the
    world the storage engine lives in. *)
Record App (S : Type) : Type := mkApp {
  server : Fastify S;
  world : S
}.
Arguments mkApp {S} _ _.
Arguments server {S} _.
Arguments world {S} _.

(** A request the server handles. *)
Record FastifyRequest : Type := mkRequest { req_method : string; req_url : string }.

(** Modelled from the spec: [fastify.decorate(name, value)] binds [name]
    on the server-level extension point. *)
Definition decorate {S} (name : string) (d : Decoration S) : Eff (App S) unit :=
  fun a =>
    (Returned tt,
     mkApp (mkFastify S (<[name := d]> (decorators (server a)))
                        (requestDecorators (server a))
                        (onCloseHooks (server a)))
           (world a)).

(** Modelled from the spec: [fastify.decorateRequest(name, value)] binds
    [name] on the request-level extension point. *)
Definition decorateRequest {S} (name : string) (d : Decoration S) : Eff (App S) unit :=
  fun a =>
    (Returned tt,
     mkApp (mkFastify S (decorators (server a))
                        (<[name := d]> (requestDecorators (server a)))
                        (onCloseHooks (server a)))
           (world a)).

(** Modelled from the spec: [fastify.addHook('onClose', hook)] appends
    [hook] to the shutdown hooks. *)
Definition addHook_onClose {S} (hook : Eff S unit) : Eff (App S) unit :=
  fun a =>
    (Returned tt,
     mkApp (mkFastify S (decorators (server a))
                        (requestDecorators (server a))
                        (onCloseHooks (server a) ++ [hook]))
           (world a)).

(** A call into the engine from registration: it acts on the world and
    leaves the server alone. *)
Definition in_world {S A} (m : Eff S A) : Eff (App S) A :=
  fun a =>
    match m (world a) with
    | (r, w) => (r, mkApp (server a) w)
    end.

(** Reading a decoration: a plain value is the property itself, a getter
    is called. *)
Definition resolve {S} (d : Decoration S) : Decorated S :=
  match d with
  | Plain v => v
  | Getter g => g tt
  end.

(** [fastify[name]]. *)
Definition instance_get {S} (f : Fastify S) (name : string) : option (Decorated S) :=
  resolve <$> decorators f !! name.

(** [req[name]]: every request inherits the request-level decorations. *)
Definition request_get {S} (f : Fastify S) (req : FastifyRequest) (name : string)
  : option (Decorated S) :=
  resolve <$> requestDecorators f !! name.

(** A handler's use of the decoration [d] as a storage. *)
Definition through {S A} (d : option (Decorated S)) (k : Storage S -> Eff S A) : Eff S A :=
  match d with
  | Some (DStorage s) => k s
  | _ => throw "not a storage"
  end.

(* ================================================================= *)
(** ** The plugin, [src/index.ts] *)

Section Plugin.
Context {S : Type}.
Variable U : Unstorage S.

(** [createPrefixedStoragely], lines 65-69. *)
Definition createPrefixedStoragely (storage : Storage S) : string -> Eff S (Storage S) :=
  fun prefix => prefixStorage U storage prefix.

(** [createSnapshotedStoragely], lines 77-81. *)
Definition createSnapshotedStoragely (storage : Storage S) : StoragelySnapshotReturn S :=
  {| take := fun base => snapshot U storage base;
     restore := fun snap base => restoreSnapshot U storage snap base |}.

(** The finally block of the hook, lines 119-126. *)
Definition cleanup (storagely : Storage S) : Eff S unit :=
  unwatch storagely ;;
  mounts <- getMounts storagely "" ;;
  for_of mounts (fun m => unmount storagely (base m) true) ;;
  dispose storagely.

(** [await opts.close?.()], line 117: nothing to call when [close] is
    absent. *)
Definition call_close (opts : FastifyStoragelyOptions S) : Eff S unit :=
  match close opts with
  | Some f => f
  | None => ret tt
  end.

(** The [onClose] hook, lines 115-128. *)
Definition onClose (storagely : Storage S) (opts : FastifyStoragelyOptions S) : Eff S unit :=
  try_finally (call_close opts) (cleanup storagely).

(** [plugin], lines 97-131. *)
Definition plugin (opts : FastifyStoragelyOptions S) (done : Eff (App S) unit)
  : Eff (App S) unit :=
  storagely <- in_world (createStorage U (storage_options opts)) ;;
  decorate "storagely" (Getter (fun _ => DStorage storagely)) ;;
  decorateRequest "storagely" (Getter (fun _ => DStorage storagely)) ;;
  let storagelyPrefix := createPrefixedStoragely storagely in
  decorate "storagelyPrefix" (Plain (DPrefix storagelyPrefix)) ;;
  decorateRequest "storagelyPrefix" (Plain (DPrefix storagelyPrefix)) ;;
  let storagelySnapshot := createSnapshotedStoragely storagely in
  decorate "storagelySnapshot" (Plain (DSnapshot storagelySnapshot)) ;;
  decorateRequest "storagelySnapshot" (Plain (DSnapshot storagelySnapshot)) ;;
  addHook_onClose (onClose storagely opts) ;;
  done.

(** [fastifyStoragely = fp(plugin, ...)], line 133: the wrapper lifts the
    plugin out of its encapsulation, so that it decorates the instance it
    is registered on. *)
Definition fastifyStoragely := plugin.

End Plugin.

(* ================================================================= *)
(** ** A spy on the storage and on the callback *)

(** The calls of the shutdown hook, as a test double would record them. *)
Inductive Call : Type :=
| CallClose
| CallUnwatch
| CallGetMounts (b : string)
| CallUnmount (b : string) (disposeDriver : bool)
| CallDispose.

(** How a recorded call ended. *)
Inductive Reply : Type :=
| Done
| Gave (ms : list Mount)
| Raised (e : Err).

Record Event : Type := mkEvent { call : Call; reply : Reply }.

(** Run [m] and append the call and its end to the log. *)
Definition spy {S A} (c : Call) (rep : A -> Reply) (m : Eff S A)
  : Eff (S * list Event) A :=
  fun sl =>
    match m (fst sl) with
    | (Returned a, s') => (Returned a, (s', snd sl ++ [mkEvent c (rep a)]))
    | (Threw e, s') => (Threw e, (s', snd sl ++ [mkEvent c (Raised e)]))
    end.

(** Run [m] without recording it. *)
Definition quiet {S A} (m : Eff S A) : Eff (S * list Event) A :=
  fun sl =>
    match m (fst sl) with
    | (r, s') => (r, (s', snd sl))
    end.

(** A recorded computation completes as the plain one does and leaves the
    same world. *)
Definition erases {S A} (m' : Eff (S * list Event) A) (m : Eff S A) : Prop :=
  forall s l, (m' (s, l)).1 = (m s).1 /\ (m' (s, l)).2.1 = (m s).2.

(** The storage [s] with its lifecycle methods recorded. *)
Definition spied {S} (s : Storage S) : Storage (S * list Event) :=
  {| getItem := fun k => quiet (getItem s k);
     setItem := fun k v => quiet (setItem s k v);
     removeItem := fun k => quiet (removeItem s k);
     getKeys := fun b => quiet (getKeys s b);
     unwatch := spy CallUnwatch (fun _ => Done) (unwatch s);
     getMounts := fun b => spy (CallGetMounts b) Gave (getMounts s b);
     unmount := fun b d => spy (CallUnmount b d) (fun _ => Done) (unmount s b d);
     dispose := spy CallDispose (fun _ => Done) (dispose s) |}.

(** The options with the [close] callback recorded. *)
Definition spied_options {S} (opts : FastifyStoragelyOptions S)
  : FastifyStoragelyOptions (S * list Event) :=
  {| storage_options := storage_options opts;
     close := spy CallClose (fun _ => Done) <$> close opts |}.

(** One shutdown: the hook run against the spies from an empty log. The
    result is the hook's completion, the world it leaves and the log. *)
Definition shutdown {S} (storagely : Storage S) (opts : FastifyStoragelyOptions S) (w : S)
  : Outcome unit * (S * list Event) :=
  onClose (spied storagely) (spied_options opts) (w, []).

Definition calls (log : list Event) : list Call := map call log.

(** The mounts that the recorded [getMounts] call returned. *)
Fixpoint mounts_of (log : list Event) : list Mount :=
  match log with
  | [] => []
  | mkEvent (CallGetMounts _) (Gave ms) :: _ => ms
  | _ :: rest => mounts_of rest
  end.

Definition is_cleanup (c : Call) : bool :=
  match c with
  | CallClose => false
  | _ => true
  end.

(** The exception of the first recorded call selected by [sel] that
    threw. *)
Fixpoint first_raised (sel : Call -> bool) (log : list Event) : option Err :=
  match log with
  | [] => None
  | mkEvent c (Raised e) :: rest => if sel c then Some e else first_raised sel rest
  | _ :: rest => first_raised sel rest
  end.

Definition cleanup_raised (log : list Event) : option Err := first_raised is_cleanup log.

Definition close_raised (log : list Event) : option Err :=
  first_raised (fun c => negb (is_cleanup c)) log.

(** The cleanup calls of a complete run over the mounts [ms]. *)
Definition cleanup_calls (ms : list Mount) : list Call :=
  [CallUnwatch; CallGetMounts ""]
  ++ map (fun m => CallUnmount (base m) true) ms
  ++ [CallDispose].

(** The calls of a complete run: the callback when there is one, then the
    cleanup. *)
Definition expected_calls {S} (opts : FastifyStoragelyOptions S) (ms : list Mount) : list Call :=
  match close opts with
  | Some _ => [CallClose]
  | None => []
  end ++ cleanup_calls ms.

(** The record of an [unmount] that returned. *)
Definition unmounted (m : Mount) : Event := mkEvent (CallUnmount (base m) true) Done.

(** The record of the first two cleanup steps when both returned. *)
Definition entered (ms : list Mount) : list Event :=
  [mkEvent CallUnwatch Done; mkEvent (CallGetMounts "") (Gave ms)].

(** The logs the finally block can leave, with its completion: it stops at
    the first call that throws, or it runs to the end. *)
Inductive cleanup_run : Outcome unit -> list Event -> Prop :=
| unwatch_raised e :
    cleanup_run (Threw e) [mkEvent CallUnwatch (Raised e)]
| getMounts_raised e :
    cleanup_run (Threw e)
      [mkEvent CallUnwatch Done; mkEvent (CallGetMounts "") (Raised e)]
| unmount_raised e before m after :
    cleanup_run (Threw e)
      (entered (before ++ m :: after) ++ map unmounted before
       ++ [mkEvent (CallUnmount (base m) true) (Raised e)])
| dispose_raised e ms :
    cleanup_run (Threw e)
      (entered ms ++ map unmounted ms ++ [mkEvent CallDispose (Raised e)])
| cleanup_complete ms :
    cleanup_run (Returned tt)
      (entered ms ++ map unmounted ms ++ [mkEvent CallDispose Done]).

(** The record of the callback, when there is one. *)
Definition close_events {S} (opts : FastifyStoragelyOptions S) (rc : Outcome unit)
  : list Event :=
  match close opts, rc with
  | None, _ => []
  | Some _, Returned _ => [mkEvent CallClose Done]
  | Some _, Threw e => [mkEvent CallClose (Raised e)]
  end.

(** [try ... finally]: the completion of the whole from those of its two
    blocks. *)
Definition settle {A} (body : Outcome A) (fin : Outcome unit) : Outcome A :=
  match fin with
  | Returned _ => body
  | Threw e => Threw e
  end.

(* ================================================================= *)
(** ** Keys *)

(** [key.startsWith(b)]. *)
Fixpoint startsWith (b key : string) : bool :=
  match b, key with
  | EmptyString, _ => true
  | String c b', String d key' => if decide (c = d) then startsWith b' key' else false
  | String _ _, EmptyString => false
  end.

(** [key.slice(n)]. *)
Fixpoint slice (n : nat) (key : string) : string :=
  match n, key with
  | O, _ => key
  | Datatypes.S n', String _ key' => slice n' key'
  | Datatypes.S _, EmptyString => EmptyString
  end.

(* ================================================================= *)
(** ** The engine, in memory *)

(** One storage: its entries, its mounts, whether it is watched and
    whether it was disposed. *)
Record Store : Type := mkStore {
  items : gmap string StorageValue;
  mounts : list Mount;
  watching : bool;
  disposed : bool
}.

(** The world of the in-memory engine: the storages alive, by handle. Two
    views of one handle share its entries. *)
Abbreviation Heap := (gmap nat Store).

(** A method of the storage behind handle [h]. *)
Definition on_store {A} (h : nat) (f : Store -> A * Store) : Eff Heap A :=
  fun w =>
    match w !! h with
    | Some st => (Returned (fst (f st)), <[h := snd (f st)]> w)
    | None => (Threw "storage handle not found", w)
    end.

(** Modelled from the spec: the raw handle of the engine's in-memory
    backend ([get]/[set]/[delete]/[keys] on a keyed store, watch
    subscriptions, mounts under a base path, disposal); the engine's code
    is not part of the repository. *)
Definition memory_storage (h : nat) : Storage Heap :=
  {| getItem := fun key =>
       on_store h (fun st => (default VNull (items st !! key), st));
     setItem := fun key v =>
       on_store h (fun st =>
         (tt, mkStore (<[key := v]> (items st)) (mounts st) (watching st) (disposed st)));
     removeItem := fun key =>
       on_store h (fun st =>
         (tt, mkStore (delete key (items st)) (mounts st) (watching st) (disposed st)));
     getKeys := fun b =>
       on_store h (fun st =>
         (filter (fun key => startsWith b key = true) (map_to_list (items st)).*1, st));
     unwatch :=
       on_store h (fun st => (tt, mkStore (items st) (mounts st) false (disposed st)));
     getMounts := fun b =>
       on_store h (fun st => (filter (fun m => startsWith b (base m) = true) (mounts st), st));
     unmount := fun b _ =>
       on_store h (fun st =>
         (tt, mkStore (items st) (filter (fun m => base m <> b) (mounts st))
                      (watching st) (disposed st)));
     dispose :=
       on_store h (fun st => (tt, mkStore (items st) (mounts st) (watching st) true)) |}.

(** Modelled from the spec: the storage constructor adapter of section 4.1.
    It returns a fresh handle synchronously; an invalid driver selection
    surfaces as the engine's error. The engine's code is not part of the
    repository. *)
Definition memory_createStorage (o : CreateStorageOptions) : Eff Heap (Storage Heap) :=
  fun w =>
    let fresh_store d := mkStore ∅ [mkMount "" d] false false in
    let h := fresh (dom w) in
    match opt_driver o with
    | None => (Returned (memory_storage h), <[h := fresh_store "memory"]> w)
    | Some d =>
        if decide (d = "memory")
        then (Returned (memory_storage h), <[h := fresh_store d]> w)
        else (Threw ("invalid driver: " +:+ d), w)
    end.

(** Modelled from the spec: the prefixed view of section 3, "a logical,
    stateless projection of the storage handle that transparently
    adds/strips a fixed string prefix on every key"; it has no lifecycle
    of its own. The engine's [prefixStorage], which builds it without
    touching the store, is not part of the repository. *)
Definition prefixed {S} (s : Storage S) (p : string) : Storage S :=
  {| getItem := fun key => getItem s (p +:+ key);
     setItem := fun key v => setItem s (p +:+ key) v;
     removeItem := fun key => removeItem s (p +:+ key);
     getKeys := fun b =>
       keys <- getKeys s (p +:+ b) ;;
       ret (map (slice (String.length p)) keys);
     unwatch := unwatch s;
     getMounts := getMounts s;
     unmount := unmount s;
     dispose := dispose s |}.

(** Modelled from the spec: [take(base)] of section 4.3, which
    "enumerates every key under [base] and returns a mapping from the
    key's local name (base stripped) to its current value". The engine's
    [snapshot] is not part of the repository. *)
Definition take_snapshot {S} (s : Storage S) (b : string) : Eff S Snapshot :=
  keys <- getKeys s b ;;
  foldM (fun (snap : Snapshot) key =>
           v <- getItem s key ;;
           ret (<[slice (String.length b) key := v]> snap))
        ∅ keys.

(** Modelled from the spec: [restore(snapshot, base?)] of section 4.3,
    which "writes every key in [snapshot] back under [base]", the
    whole-store root when [base] is not given, and deletes nothing. The
    engine's [restoreSnapshot] is not part of the repository. *)
Definition restore_snapshot {S} (s : Storage S) (snap : Snapshot) (b : option string)
  : Eff S unit :=
  for_of (map_to_list snap) (fun kv => setItem s (default "" b +:+ kv.1) kv.2).

(** The in-memory engine as the plugin imports it. *)
Definition MemoryUnstorage : Unstorage Heap :=
  {| createStorage := memory_createStorage;
     prefixStorage := fun s p => ret (prefixed s p);
     snapshot := take_snapshot;
     restoreSnapshot := restore_snapshot |}.

(** A storage whose watcher cannot be stopped: [unwatch] rejects. The
    other methods are those of the in-memory storage. *)
Definition stuck_watcher (h : nat) : Storage Heap :=
  {| getItem := getItem (memory_storage h);
     setItem := setItem (memory_storage h);
     removeItem := removeItem (memory_storage h);
     getKeys := getKeys (memory_storage h);
     unwatch := throw "unwatch failed";
     getMounts := getMounts (memory_storage h);
     unmount := unmount (memory_storage h);
     dispose := dispose (memory_storage h) |}.

(** A storage with a mount whose driver cannot be released: [unmount] of
    the base [b] rejects. *)
Definition stuck_mount (h : nat) (b : string) : Storage Heap :=
  {| getItem := getItem (memory_storage h);
     setItem := setItem (memory_storage h);
     removeItem := removeItem (memory_storage h);
     getKeys := getKeys (memory_storage h);
     unwatch := unwatch (memory_storage h);
     getMounts := getMounts (memory_storage h);
     unmount := fun b' d =>
       if decide (b' = b) then throw "unmount failed" else unmount (memory_storage h) b' d;
     dispose := dispose (memory_storage h) |}.

(** A world with one storage, handle [0]: two mounts, a watcher, one
    entry. *)
Definition seeded_store : Store :=
  mkStore {[ "foo" := VString "bar" ]}
          [mkMount "" "memory"; mkMount "cache:" "memory"]
          true false.

Definition one_storage : Heap := {[ 0%nat := seeded_store ]}.

(** A snapshot with one entry. *)
Definition old_snapshot : Snapshot := {[ "foo" := VString "old" ]}.

(** Options without a callback, with a callback that returns and with one
    that throws. *)
Definition no_callback : FastifyStoragelyOptions Heap :=
  {| storage_options := mkCreateStorageOptions (Some "memory"); close := None |}.

Definition quiet_callback : FastifyStoragelyOptions Heap :=
  {| storage_options := mkCreateStorageOptions (Some "memory"); close := Some (ret tt) |}.

Definition failing_callback : FastifyStoragelyOptions Heap :=
  {| storage_options := mkCreateStorageOptions (Some "memory");
     close := Some (throw "close failed") |}.

(** Options that select a driver the engine does not have. *)
Definition bad_driver : FastifyStoragelyOptions Heap :=
  {| storage_options := mkCreateStorageOptions (Some "redis"); close := None |}.

(** A server before registration. *)
Definition bare_server : Fastify Heap :=
  {| decorators := ∅; requestDecorators := ∅; onCloseHooks := [] |}.

(* ================================================================= *)
(** ** The build entries, [rolldown.config.ts] *)

(** File names are strings of bytes here and strings of UTF-16 code units
    in the source; the characters that [/\.ts$/i] looks at are ASCII, and
    no byte of a longer UTF-8 sequence is ASCII, so the two agree on where
    the suffix is. *)

(** Whether [s] is [.ts] in either case of its two letters: what
    [/\.ts$/i] matches from a position to the end of the string. *)
Definition is_dot_ts (s : string) : bool :=
  match s with
  | String dot (String t (String s' EmptyString)) =>
      bool_decide (dot = "."%char)
      && (bool_decide (t = "t"%char) || bool_decide (t = "T"%char))
      && (bool_decide (s' = "s"%char) || bool_decide (s' = "S"%char))
  | _ => false
  end.

(** [file.replace(/\.ts$/i, '')], line 11: the string up to the first
    position at which the pattern matches, the whole string when it
    matches nowhere. *)
Fixpoint strip_ts (file : string) : string :=
  if is_dot_ts file then EmptyString
  else match file with
       | EmptyString => EmptyString
       | String c rest => String c (strip_ts rest)
       end.

(** Whether [/\.ts$/i] matches somewhere in [file]. *)
Fixpoint ends_in_ts (file : string) : bool :=
  is_dot_ts file
  || match file with
     | EmptyString => false
     | String _ rest => ends_in_ts rest
     end.

(** The callback of [map], lines 10-15: the entry [[input, source]] of one
    file of [src/drivers]. *)
Definition driver_entry (file : string) : string * string :=
  let name := strip_ts file in
  let input := "drivers/" +:+ name in
  let source := "src/" +:+ input +:+ ".ts" in
  (input, source).

(** [drivers], lines 9-16: [Object.fromEntries] over the entries of the
    directory listing; of two entries with one key the later one stays. *)
Definition drivers (listing : list string) : gmap string string :=
  fold_left (fun m kv => <[kv.1 := kv.2]> m) (map driver_entry listing) ∅.

(** [basic.input], lines 19-22: [{ index: 'src/index.ts', ...drivers }];
    a spread property replaces one of the same name written before it. *)
Definition build_input (listing : list string) : gmap string string :=
  drivers listing ∪ {[ "index" := "src/index.ts" ]}.

(* ================================================================= *)
(** * Theorems *)

(** ** The monad *)

Lemma bind_returned {S A B} (m : Eff S A) (k : A -> Eff S B) s a s' :
  m s = (Returned a, s') -> bind m k s = k a s'.
Proof. intros H. unfold bind. by rewrite H. Qed.

Lemma bind_threw {S A B} (m : Eff S A) (k : A -> Eff S B) s e s' :
  m s = (Threw e, s') -> bind m k s = (Threw e, s').
Proof. intros H. unfold bind. by rewrite H. Qed.

Lemma try_finally_settle {S A} (body : Eff S A) (fin : Eff S unit) s r s1 rf s2 :
  body s = (r, s1) -> fin s1 = (rf, s2) -> try_finally body fin s = (settle r rf, s2).
Proof.
  intros Hb Hf. unfold try_finally. rewrite Hb, Hf. by destruct rf.
Qed.

(** ** What the spy records *)

Lemma spy_returned {S A} c rep (m : Eff S A) s l a s' :
  m s = (Returned a, s') -> spy c rep m (s, l) = (Returned a, (s', l ++ [mkEvent c (rep a)])).
Proof. intros H. unfold spy. simpl. by rewrite H. Qed.

Lemma spy_threw {S A} c rep (m : Eff S A) s l e s' :
  m s = (Threw e, s') -> spy c rep m (s, l) = (Threw e, (s', l ++ [mkEvent c (Raised e)])).
Proof. intros H. unfold spy. simpl. by rewrite H. Qed.

(** The unmount loop against the spy: it records every mount, or it stops
    at the first [unmount] that throws. *)
Lemma unmount_loop_spied {S} (s : Storage S) ms w l :
  (exists w',
      for_of ms (fun m => unmount (spied s) (base m) true) (w, l)
      = (Returned tt, (w', l ++ map unmounted ms)))
  \/ (exists e w' before m after,
         ms = before ++ m :: after
         /\ for_of ms (fun m => unmount (spied s) (base m) true) (w, l)
            = (Threw e, (w', l ++ map unmounted before
                              ++ [mkEvent (CallUnmount (base m) true) (Raised e)]))).
Proof.
  revert w l. induction ms as [|m ms IH]; intros w l.
  - left. exists w. simpl. by rewrite app_nil_r.
  - cbn [for_of]. destruct (unmount s (base m) true w) as [[[]|e] w1] eqn:Hm.
    + erewrite bind_returned by (by apply spy_returned).
      destruct (IH w1 (l ++ [mkEvent (CallUnmount (base m) true) Done]))
        as [[w' H]|(e & w' & before & m' & after & -> & H)].
      * left. exists w'. rewrite H. by rewrite <- app_assoc.
      * right. exists e, w', (m :: before), m', after. split; [done|].
        rewrite H. simpl. by rewrite <- app_assoc.
    + right. exists e, w1, [], m, ms. split; [done|].
      erewrite bind_threw by (by apply spy_threw). done.
Qed.

(** The finally block against the spy: whatever the storage does, the log
    grows by one of the five runs of [cleanup_run]. *)
Lemma cleanup_spied {S} (s : Storage S) w l :
  exists r w' evs,
    cleanup (spied s) (w, l) = (r, (w', l ++ evs)) /\ cleanup_run r evs.
Proof.
  unfold cleanup.
  destruct (unwatch s w) as [[[]|e] w1] eqn:Hu.
  2:{ exists (Threw e), w1, [mkEvent CallUnwatch (Raised e)]. split; [|constructor].
      by erewrite bind_threw by (by apply spy_threw). }
  erewrite bind_returned by (by apply spy_returned).
  destruct (getMounts s "" w1) as [[ms|e] w2] eqn:Hg.
  2:{ exists (Threw e), w2, [mkEvent CallUnwatch Done; mkEvent (CallGetMounts "") (Raised e)].
      split; [|constructor].
      erewrite bind_threw by (by apply spy_threw). by rewrite <- app_assoc. }
  erewrite bind_returned by (by apply spy_returned).
  rewrite <- app_assoc. simpl.
  destruct (unmount_loop_spied s ms w2 (l ++ entered ms))
    as [[w3 H]|(e & w3 & before & m & after & -> & H)].
  - erewrite bind_returned by exact H.
    destruct (dispose s w3) as [[[]|e] w4] eqn:Hd.
    + exists (Returned tt), w4, (entered ms ++ map unmounted ms ++ [mkEvent CallDispose Done]).
      split; [|constructor].
      erewrite spy_returned by done. by rewrite <- !app_assoc.
    + exists (Threw e), w4, (entered ms ++ map unmounted ms ++ [mkEvent CallDispose (Raised e)]).
      split; [|constructor].
      erewrite spy_threw by done. by rewrite <- !app_assoc.
  - eexists (Threw e), w3, _. split; [|apply (unmount_raised e before m after)].
    erewrite bind_threw by exact H. by rewrite <- !app_assoc.
Qed.

(** One shutdown against the spy: the callback's record when there is a
    callback, then one of the five cleanup runs; the hook completes as
    [try ... finally] settles the two. *)
Lemma shutdown_run {S} (s : Storage S) opts w :
  exists rc rf w1 w' evs,
    call_close opts w = (rc, w1)
    /\ shutdown s opts w = (settle rc rf, (w', close_events opts rc ++ evs))
    /\ cleanup_run rf evs.
Proof.
  unfold shutdown, onClose, call_close, close_events.
  destruct opts as [so [f|]]; simpl.
  - destruct (f w) as [[[]|e] w1] eqn:Hf.
    + destruct (cleanup_spied s w1 [mkEvent CallClose Done]) as (rf & w' & evs & Hc & Hr).
      exists (Returned tt), rf, w1, w', evs. split; [done|]. split; [|done].
      eapply try_finally_settle; [|exact Hc]. by apply spy_returned.
    + destruct (cleanup_spied s w1 [mkEvent CallClose (Raised e)]) as (rf & w' & evs & Hc & Hr).
      exists (Threw e), rf, w1, w', evs. split; [done|]. split; [|done].
      eapply try_finally_settle; [|exact Hc]. by apply spy_threw.
  - destruct (cleanup_spied s w []) as (rf & w' & evs & Hc & Hr).
    exists (Returned tt), rf, w, w', evs. split; [done|]. split; [|done].
    by eapply try_finally_settle.
Qed.

(** The unmount loop when every [unmount] returns: the spy sees them all
    and changes nothing. *)
Lemma unmount_loop_returned {S} (s : Storage S) ms w w' l :
  for_of ms (fun m => unmount s (base m) true) w = (Returned tt, w') ->
  for_of ms (fun m => unmount (spied s) (base m) true) (w, l)
  = (Returned tt, (w', l ++ map unmounted ms)).
Proof.
  revert w l. induction ms as [|m ms IH]; intros w l; cbn [for_of].
  - intros [= ->]. by rewrite app_nil_r.
  - unfold bind at 1. destruct (unmount s (base m) true w) as [[[]|e] w1] eqn:Hm; [|done].
    intros H. erewrite bind_returned by (by apply spy_returned).
    rewrite (IH _ _ H). simpl. by rewrite <- app_assoc.
Qed.

(** The finally block when it completes: the spy records the four kinds of
    call in order, over the mounts that [getMounts] gave. *)
Lemma cleanup_returned {S} (s : Storage S) w w' l :
  cleanup s w = (Returned tt, w') ->
  exists ms,
    cleanup (spied s) (w, l)
    = (Returned tt, (w', l ++ entered ms ++ map unmounted ms ++ [mkEvent CallDispose Done])).
Proof.
  unfold cleanup. unfold bind at 1 2 3.
  destruct (unwatch s w) as [[[]|e] w1] eqn:Hu; [|done].
  destruct (getMounts s "" w1) as [[ms|e] w2] eqn:Hg; [|done].
  destruct (for_of ms _ w2) as [[[]|e] w3] eqn:Hl; [|done].
  intros Hd. exists ms.
  erewrite bind_returned by (by apply spy_returned).
  erewrite bind_returned by (by apply spy_returned).
  erewrite bind_returned by (by apply unmount_loop_returned).
  cbn [dispose spied]. erewrite spy_returned by exact Hd.
  by rewrite <- !app_assoc.
Qed.

(** ** The spy changes nothing *)

Lemma erases_spy {S A} c rep (m : Eff S A) : erases (spy c rep m) m.
Proof. intros s l. unfold spy. cbn. by destruct (m s) as [[a|e] s']. Qed.

Lemma erases_ret {S A} (a : A) : erases (S := S) (ret a) (ret a).
Proof. by intros s l. Qed.

Lemma erases_bind {S A B} (m' : Eff (S * list Event) A) (m : Eff S A)
    (k' : A -> Eff (S * list Event) B) (k : A -> Eff S B) :
  erases m' m -> (forall a, erases (k' a) (k a)) -> erases (bind m' k') (bind m k).
Proof.
  intros Hm Hk s l. unfold bind. destruct (Hm s l) as [H1 H2].
  destruct (m' (s, l)) as [r' [s1' l1]], (m s) as [r s1]. cbn in H1, H2. subst r' s1'.
  destruct r as [a|e]; [apply Hk|done].
Qed.

Lemma erases_for_of {S A} (xs : list A) (k' : A -> Eff (S * list Event) unit)
    (k : A -> Eff S unit) :
  (forall x, erases (k' x) (k x)) -> erases (for_of xs k') (for_of xs k).
Proof.
  intros Hk. induction xs as [|x xs IH]; [apply erases_ret|].
  cbn [for_of]. by apply erases_bind.
Qed.

Lemma erases_try_finally {S A} (b' : Eff (S * list Event) A) (b : Eff S A)
    (f' : Eff (S * list Event) unit) (f : Eff S unit) :
  erases b' b -> erases f' f -> erases (try_finally b' f') (try_finally b f).
Proof.
  intros Hb Hf s l. unfold try_finally. destruct (Hb s l) as [H1 H2].
  destruct (b' (s, l)) as [r' [s1' l1]], (b s) as [r s1]. cbn in H1, H2. subst r' s1'.
  destruct (Hf s1 l1) as [H3 H4].
  destruct (f' (s1, l1)) as [rf' [s2' l2]], (f s1) as [rf s2]. cbn in H3, H4. subst rf' s2'.
  by destruct rf.
Qed.

(** The recorded shutdown is the hook's own run: same completion, same
    world. *)
Lemma shutdown_is_onClose {S} (s : Storage S) opts w :
  (shutdown s opts w).1 = (onClose s opts w).1
  /\ (shutdown s opts w).2.1 = (onClose s opts w).2.
Proof.
  apply erases_try_finally.
  - unfold call_close, spied_options. cbn. destruct (close opts); cbn.
    + apply erases_spy.
    + apply erases_ret.
  - unfold cleanup. apply erases_bind; [apply erases_spy|]. intros _.
    apply erases_bind; [apply erases_spy|]. intros ms.
    apply erases_bind; [|intros _; apply erases_spy].
    apply erases_for_of. intros m. apply erases_spy.
Qed.

(** ** Reading a log *)

Lemma calls_app l1 l2 : calls (l1 ++ l2) = calls l1 ++ calls l2.
Proof. apply map_app. Qed.

Lemma calls_unmounted ms :
  calls (map unmounted ms) = map (fun m => CallUnmount (base m) true) ms.
Proof. unfold calls. rewrite map_map. done. Qed.

Lemma first_raised_unmounted sel ms rest :
  first_raised sel (map unmounted ms ++ rest) = first_raised sel rest.
Proof. induction ms as [|m ms IH]; [done|]. simpl. exact IH. Qed.

(** A call that differs from every element of an explicit list. *)
Ltac absent_call :=
  repeat (apply not_elem_of_cons; split; [discriminate|]); apply not_elem_of_nil.

Lemma dispose_not_unmounted ms : CallDispose ∉ calls (map unmounted ms).
Proof.
  rewrite calls_unmounted. intros (m & H & _)%list_elem_of_fmap. discriminate H.
Qed.

(** What can be read off a cleanup run: its calls are an initial segment of
    the complete sequence, the whole of it exactly when nothing threw, and
    a call that threw is the last one. *)
Lemma cleanup_run_calls r evs :
  cleanup_run r evs ->
  calls evs `prefix_of` cleanup_calls (mounts_of evs)
  /\ (cleanup_raised evs = None -> r = Returned tt /\ calls evs = cleanup_calls (mounts_of evs))
  /\ (forall e, cleanup_raised evs = Some e ->
        r = Threw e
        /\ exists c, is_cleanup c = true
             /\ last evs = Some (mkEvent c (Raised e))
             /\ (c <> CallDispose -> CallDispose ∉ calls evs)).
Proof.
  unfold cleanup_raised, cleanup_calls.
  destruct 1 as [e|e|e before m after|e ms|ms]; simpl.
  - split; [by eexists|]. split; [done|]. intros ? [= <-]. split; [done|].
    exists CallUnwatch. split_and!; [done..|]. intros _. absent_call.
  - split; [by eexists|]. split; [done|]. intros ? [= <-]. split; [done|].
    exists (CallGetMounts ""). split_and!; [done..|]. intros _. absent_call.
  - rewrite first_raised_unmounted, calls_app, calls_unmounted, map_app. simpl.
    split.
    { do 2 apply prefix_cons. rewrite <- app_assoc. apply prefix_app.
      simpl. apply prefix_cons. apply prefix_nil. }
    split; [done|]. intros ? [= <-]. split; [done|].
    exists (CallUnmount (base m) true). split_and!; [done| |].
    + by rewrite !app_comm_cons, last_snoc.
    + intros _. rewrite !not_elem_of_cons, not_elem_of_app, <- calls_unmounted.
      split_and!; [done..| |]; [apply dispose_not_unmounted|absent_call].
  - rewrite first_raised_unmounted, calls_app, calls_unmounted. simpl.
    split; [done|]. split; [done|]. intros ? [= <-]. split; [done|].
    exists CallDispose. split_and!; [done| |done].
    by rewrite !app_comm_cons, last_snoc.
  - rewrite first_raised_unmounted, calls_app, calls_unmounted. simpl.
    split; [done|]. split; [done|]. intros ? [=].
Qed.

(** The callback's record holds no cleanup call. *)
Lemma close_events_read {S} (opts : FastifyStoragelyOptions S) rc evs :
  calls (close_events opts rc ++ evs)
  = match close opts with Some _ => [CallClose] | None => [] end ++ calls evs
  /\ mounts_of (close_events opts rc ++ evs) = mounts_of evs
  /\ cleanup_raised (close_events opts rc ++ evs) = cleanup_raised evs.
Proof.
  unfold close_events. by destruct (close opts), rc.
Qed.

(* ================================================================= *)
(** ** The shutdown hook *)

(** C1. On shutdown the hook makes its calls in one fixed order: the
    [close] callback when one was supplied, then [unwatch], then
    [getMounts('')], then [unmount(base, true)] for each mount that
    [getMounts] returned, in the order returned, then [dispose]. Whatever
    the storage and the callback do, the recorded calls are an initial
    segment of that sequence, and they are the whole sequence in every run
    in which no cleanup call throws. *)
Theorem onClose_four_steps_in_order {S} (storagely : Storage S)
    (opts : FastifyStoragelyOptions S) (w : S) :
  let log := (shutdown storagely opts w).2.2 in
  calls log `prefix_of` expected_calls opts (mounts_of log)
  /\ (cleanup_raised log = None -> calls log = expected_calls opts (mounts_of log)).
Proof.
  destruct (shutdown_run storagely opts w) as (rc & rf & w1 & w' & evs & _ & -> & Hrun).
  cbn zeta. cbn [fst snd].
  destruct (close_events_read opts rc evs) as (-> & -> & ->).
  destruct (cleanup_run_calls _ _ Hrun) as (Hpre & Hall & _).
  unfold expected_calls. split.
  - by apply prefix_app.
  - intros Hnone. by destruct (Hall Hnone) as [_ ->].
Qed.

(** C1 on the in-memory storage with two mounts and a callback. *)
Example onClose_four_steps_run :
  calls (shutdown (memory_storage 0) quiet_callback one_storage).2.2
  = [CallClose; CallUnwatch; CallGetMounts "";
     CallUnmount "" true; CallUnmount "cache:" true; CallDispose].
Proof. reflexivity. Qed.

(** C2. When the [close] callback throws and the cleanup block then
    completes, steps 2 to 4 have all run, after the callback and in order,
    and the hook completes with the callback's own exception, in the world
    that the cleanup left. (The run in which a cleanup call throws as well
    is the subject of C3.) *)
Theorem close_failure_keeps_cleanup {S} (storagely : Storage S)
    (opts : FastifyStoragelyOptions S) (f : Eff S unit) (w w1 w2 : S) (e : Err) :
  close opts = Some f ->
  f w = (Threw e, w1) ->
  cleanup storagely w1 = (Returned tt, w2) ->
  onClose storagely opts w = (Threw e, w2)
  /\ exists log,
       shutdown storagely opts w = (Threw e, (w2, log))
       /\ calls log = CallClose :: cleanup_calls (mounts_of log)
       /\ close_raised log = Some e
       /\ cleanup_raised log = None.
Proof.
  intros Hclose Hf Hc. split.
  - unfold onClose, call_close. rewrite Hclose.
    by rewrite (try_finally_settle _ _ _ _ _ _ _ Hf Hc).
  - destruct (cleanup_returned storagely w1 w2 [mkEvent CallClose (Raised e)] Hc)
      as [ms Hs].
    eexists. split.
    + unfold shutdown, onClose, call_close, spied_options. simpl. rewrite Hclose. simpl.
      etrans; [eapply try_finally_settle; [by apply spy_threw|exact Hs]|done].
    + unfold close_raised, cleanup_raised, cleanup_calls. simpl.
      rewrite !first_raised_unmounted, calls_app, calls_unmounted. done.
Qed.

Lemma close_failure_keeps_cleanup_witness :
  onClose (memory_storage 0) failing_callback one_storage
  = (Threw "close failed", (cleanup (memory_storage 0) one_storage).2)
  /\ exists log,
       shutdown (memory_storage 0) failing_callback one_storage
       = (Threw "close failed", ((cleanup (memory_storage 0) one_storage).2, log))
       /\ calls log = CallClose :: cleanup_calls (mounts_of log)
       /\ close_raised log = Some "close failed"
       /\ cleanup_raised log = None.
Proof.
  apply (close_failure_keeps_cleanup (memory_storage 0) failing_callback
           (throw "close failed") one_storage one_storage).
  - reflexivity.
  - reflexivity.
  - vm_compute. reflexivity.
Defined.

(** C3, as the code has it. A failure of the callback skips no cleanup
    step: [unwatch] is called in every run. A cleanup call that throws ends
    the hook: it is the last call made, the hook completes with its
    exception (also when the callback had thrown before), and unless the
    call was [dispose] itself, the handle is never disposed. When no
    cleanup call throws, every step has run and the hook completes as the
    callback did. *)
Theorem cleanup_failure_ends_hook {S} (storagely : Storage S)
    (opts : FastifyStoragelyOptions S) (w : S) :
  let r := (onClose storagely opts w).1 in
  let log := (shutdown storagely opts w).2.2 in
  CallUnwatch ∈ calls log
  /\ (forall e, cleanup_raised log = Some e ->
        r = Threw e
        /\ exists c, is_cleanup c = true
             /\ last log = Some (mkEvent c (Raised e))
             /\ (c <> CallDispose -> CallDispose ∉ calls log))
  /\ (cleanup_raised log = None ->
        calls log = expected_calls opts (mounts_of log)
        /\ r = (call_close opts w).1).
Proof.
  destruct (shutdown_is_onClose storagely opts w) as [<- _].
  destruct (shutdown_run storagely opts w) as (rc & rf & w1 & w' & evs & Hcc & -> & Hrun).
  destruct (close_events_read opts rc evs) as (Hcalls & Hms & Hraised).
  destruct (cleanup_run_calls _ _ Hrun) as (_ & Hall & Hfail).
  cbn zeta. cbn [fst snd]. rewrite Hcalls, Hms, Hraised, Hcc. split_and!.
  - apply elem_of_app. right.
    destruct Hrun; simpl; try (apply list_elem_of_here).
  - intros e He. destruct (Hfail e He) as (-> & c & Hc & Hlast & Hnd).
    split; [done|]. exists c. split_and!; [done| |].
    + destruct evs as [|ev evs]; [done|].
      rewrite last_app. by rewrite Hlast.
    + intros Hne. apply not_elem_of_app. split; [|by apply Hnd].
      destruct (close opts); absent_call.
  - intros Hnone. destruct (Hall Hnone) as [-> ->]. done.
Qed.

(** C3 as stated fails. With a storage whose [unwatch] rejects, the hook
    makes that one call and stops: no mount is enumerated or unmounted and
    [dispose] is never called, so the store is left undisposed. With a
    storage whose second [unmount] rejects, the hook stops there, again
    before [dispose]. *)
Lemma cleanup_failure_skips_dispose :
  (shutdown (stuck_watcher 0) no_callback one_storage).1 = Threw "unwatch failed"
  /\ calls (shutdown (stuck_watcher 0) no_callback one_storage).2.2 = [CallUnwatch]
  /\ disposed <$> (onClose (stuck_watcher 0) no_callback one_storage).2 !! 0%nat = Some false
  /\ (shutdown (stuck_mount 0 "cache:") no_callback one_storage).1 = Threw "unmount failed"
  /\ calls (shutdown (stuck_mount 0 "cache:") no_callback one_storage).2.2
     = [CallUnwatch; CallGetMounts ""; CallUnmount "" true; CallUnmount "cache:" true]
  /\ disposed <$> (onClose (stuck_mount 0 "cache:") no_callback one_storage).2 !! 0%nat
     = Some false.
Proof. vm_compute. done. Qed.

(** C9. Without a [close] callback the hook is the cleanup block and
    nothing else: it completes as the block does, in the same world. When
    the block completes, the hook has called [unwatch], [getMounts(''),]
    [unmount(base, true)] for every mount returned and [dispose], in that
    order and nothing before, and it returns without an exception. *)
Theorem no_callback_full_cleanup {S} (storagely : Storage S)
    (opts : FastifyStoragelyOptions S) (w w' : S) :
  close opts = None ->
  cleanup storagely w = (Returned tt, w') ->
  onClose storagely opts w = cleanup storagely w
  /\ exists log,
       shutdown storagely opts w = (Returned tt, (w', log))
       /\ calls log = cleanup_calls (mounts_of log)
       /\ cleanup_raised log = None.
Proof.
  intros Hclose Hc. split.
  - unfold onClose, call_close. rewrite Hclose, Hc.
    unfold try_finally, ret. by rewrite Hc.
  - destruct (cleanup_returned storagely w w' [] Hc) as [ms Hs].
    eexists. split.
    + unfold shutdown, onClose, call_close, spied_options. simpl. rewrite Hclose. simpl.
      etrans; [eapply try_finally_settle; [done|exact Hs]|done].
    + unfold cleanup_raised, cleanup_calls. simpl.
      rewrite !first_raised_unmounted, calls_app, calls_unmounted. done.
Qed.

Lemma no_callback_full_cleanup_witness :
  onClose (memory_storage 0) no_callback one_storage
  = cleanup (memory_storage 0) one_storage
  /\ exists log,
       shutdown (memory_storage 0) no_callback one_storage
       = (Returned tt, ((cleanup (memory_storage 0) one_storage).2, log))
       /\ calls log = cleanup_calls (mounts_of log)
       /\ cleanup_raised log = None.
Proof.
  apply (no_callback_full_cleanup (memory_storage 0) no_callback one_storage).
  - reflexivity.
  - vm_compute. reflexivity.
Defined.

(** C9 for any storage: with no callback, a failure can only come from the
    cleanup block. *)
Lemma onClose_without_callback {S} (storagely : Storage S)
    (opts : FastifyStoragelyOptions S) (w : S) :
  close opts = None -> onClose storagely opts w = cleanup storagely w.
Proof.
  intros Hclose. unfold onClose, call_close, try_finally, ret. rewrite Hclose.
  by destruct (cleanup storagely w) as [[[]|e] w'].
Qed.

(* ================================================================= *)
(** ** Registration *)

(** The server as [plugin] leaves it when it calls [done]: the three names
    bound on both extension points and the hook appended. *)
Lemma plugin_returned {S} (U : Unstorage S) opts done (a : App S) storagely w1 :
  createStorage U (storage_options opts) (world a) = (Returned storagely, w1) ->
  plugin U opts done a
  = done
      (mkApp
         (mkFastify S
            (<["storagelySnapshot" := Plain (DSnapshot (createSnapshotedStoragely U storagely))]>
               (<["storagelyPrefix" := Plain (DPrefix (createPrefixedStoragely U storagely))]>
                  (<["storagely" := Getter (fun _ => DStorage storagely)]>
                     (decorators (server a)))))
            (<["storagelySnapshot" := Plain (DSnapshot (createSnapshotedStoragely U storagely))]>
               (<["storagelyPrefix" := Plain (DPrefix (createPrefixedStoragely U storagely))]>
                  (<["storagely" := Getter (fun _ => DStorage storagely)]>
                     (requestDecorators (server a)))))
            (onCloseHooks (server a) ++ [onClose storagely opts]))
         w1).
Proof.
  intros Hc. unfold plugin.
  erewrite bind_returned; [|unfold in_world; by rewrite Hc].
  reflexivity.
Qed.

(** The hook that registration appends is [onClose] over the storage it
    built and the options it was given. *)
Lemma plugin_registers_onClose {S} (U : Unstorage S) opts done (a : App S) storagely w1 :
  createStorage U (storage_options opts) (world a) = (Returned storagely, w1) ->
  exists f',
    plugin U opts done a = done (mkApp f' w1)
    /\ onCloseHooks f' = onCloseHooks (server a) ++ [onClose storagely opts].
Proof.
  intros Hc. eexists. split; [by apply plugin_returned|done].
Qed.

(** C4. When registration completes (the storage was built and [plugin]
    calls [done]), the server it hands to [done] resolves each of
    [storagely], [storagelyPrefix] and [storagelySnapshot] to one and the
    same object on the server-level and on the request-level extension
    point, for every request: the storage that [createStorage] returned,
    and the factory and snapshot tool built from it. So whatever is done
    through the request-level storage is done to the server-level one: a
    write through either followed by a read through the other is the same
    computation as the write and the read through one of them. *)
Theorem decorations_share_one_storage {S} (U : Unstorage S) opts done (a : App S)
    storagely w1 :
  createStorage U (storage_options opts) (world a) = (Returned storagely, w1) ->
  exists f',
    plugin U opts done a = done (mkApp f' w1)
    /\ forall req : FastifyRequest,
         (instance_get f' "storagely" = Some (DStorage storagely)
          /\ request_get f' req "storagely" = Some (DStorage storagely))
         /\ (instance_get f' "storagelyPrefix"
               = Some (DPrefix (createPrefixedStoragely U storagely))
             /\ request_get f' req "storagelyPrefix"
               = Some (DPrefix (createPrefixedStoragely U storagely)))
         /\ (instance_get f' "storagelySnapshot"
               = Some (DSnapshot (createSnapshotedStoragely U storagely))
             /\ request_get f' req "storagelySnapshot"
               = Some (DSnapshot (createSnapshotedStoragely U storagely)))
         /\ (forall s1 s2 key v key',
               instance_get f' "storagely" = Some (DStorage s1) ->
               request_get f' req "storagely" = Some (DStorage s2) ->
               (setItem s1 key v ;; getItem s2 key') = (setItem s1 key v ;; getItem s1 key')
               /\ (setItem s2 key v ;; getItem s1 key') = (setItem s1 key v ;; getItem s1 key')).
Proof.
  intros Hc. eexists. split; [by apply plugin_returned|].
  intros req. unfold instance_get, request_get. cbn [decorators requestDecorators].
  split_and!.
  - rewrite 2!lookup_insert_ne by done. by rewrite lookup_insert_eq.
  - rewrite 2!lookup_insert_ne by done. by rewrite lookup_insert_eq.
  - rewrite lookup_insert_ne by done. by rewrite lookup_insert_eq.
  - rewrite lookup_insert_ne by done. by rewrite lookup_insert_eq.
  - by rewrite lookup_insert_eq.
  - by rewrite lookup_insert_eq.
  - intros s1 s2 key v key'.
    do 2 (rewrite 2!lookup_insert_ne by done; rewrite lookup_insert_eq).
    cbn. by intros [= <-] [= <-].
Qed.

Lemma decorations_share_one_storage_witness :
  exists f',
    plugin MemoryUnstorage no_callback (ret tt) (mkApp bare_server one_storage)
    = ret tt (mkApp f' (<[1%nat := mkStore ∅ [mkMount "" "memory"] false false]> one_storage))
    /\ forall req : FastifyRequest,
         (instance_get f' "storagely" = Some (DStorage (memory_storage 1))
          /\ request_get f' req "storagely" = Some (DStorage (memory_storage 1)))
         /\ (instance_get f' "storagelyPrefix"
               = Some (DPrefix (createPrefixedStoragely MemoryUnstorage (memory_storage 1)))
             /\ request_get f' req "storagelyPrefix"
               = Some (DPrefix (createPrefixedStoragely MemoryUnstorage (memory_storage 1))))
         /\ (instance_get f' "storagelySnapshot"
               = Some (DSnapshot (createSnapshotedStoragely MemoryUnstorage (memory_storage 1)))
             /\ request_get f' req "storagelySnapshot"
               = Some (DSnapshot (createSnapshotedStoragely MemoryUnstorage (memory_storage 1))))
         /\ (forall s1 s2 key v key',
               instance_get f' "storagely" = Some (DStorage s1) ->
               request_get f' req "storagely" = Some (DStorage s2) ->
               (setItem s1 key v ;; getItem s2 key') = (setItem s1 key v ;; getItem s1 key')
               /\ (setItem s2 key v ;; getItem s1 key') = (setItem s1 key v ;; getItem s1 key')).
Proof.
  apply (decorations_share_one_storage MemoryUnstorage no_callback (ret tt)
           (mkApp bare_server one_storage) (memory_storage 1)).
  vm_compute. reflexivity.
Defined.

(** C4 on a run: register on a bare server with the in-memory engine,
    write through [fastify.storagely], read through [req.storagely]. *)
Example write_on_server_read_on_request :
  let a := (plugin MemoryUnstorage no_callback (ret tt) (mkApp bare_server ∅)).2 in
  ((through (instance_get (server a) "storagely")
            (fun s => setItem s "foo" (VString "bar")) ;;
    through (request_get (server a) (mkRequest "GET" "/test-storage") "storagely")
            (fun s => getItem s "foo")) (world a)).1
  = Returned (VString "bar").
Proof. vm_compute. reflexivity. Qed.

(** C10. When [createStorage] throws, [plugin] throws the same exception
    at once: it has bound no name on either extension point, registered no
    hook and not called [done]. The server is the one it was given. *)
Theorem failed_construction_leaves_server {S} (U : Unstorage S) opts done (a : App S)
    e w1 :
  createStorage U (storage_options opts) (world a) = (Threw e, w1) ->
  plugin U opts done a = (Threw e, mkApp (server a) w1)
  /\ decorators (server (plugin U opts done a).2) = decorators (server a)
  /\ requestDecorators (server (plugin U opts done a).2) = requestDecorators (server a)
  /\ onCloseHooks (server (plugin U opts done a).2) = onCloseHooks (server a).
Proof.
  intros Hc.
  assert (plugin U opts done a = (Threw e, mkApp (server a) w1)) as ->; [|done].
  unfold plugin. erewrite bind_threw; [done|]. unfold in_world. by rewrite Hc.
Qed.

Lemma failed_construction_leaves_server_witness :
  plugin MemoryUnstorage bad_driver (ret tt) (mkApp bare_server one_storage)
  = (Threw "invalid driver: redis", mkApp bare_server one_storage)
  /\ decorators (server (plugin MemoryUnstorage bad_driver (ret tt)
                           (mkApp bare_server one_storage)).2) = ∅
  /\ requestDecorators (server (plugin MemoryUnstorage bad_driver (ret tt)
                                  (mkApp bare_server one_storage)).2) = ∅
  /\ onCloseHooks (server (plugin MemoryUnstorage bad_driver (ret tt)
                             (mkApp bare_server one_storage)).2) = [].
Proof.
  apply (failed_construction_leaves_server MemoryUnstorage bad_driver (ret tt)
           (mkApp bare_server one_storage)).
  reflexivity.
Defined.

(* ================================================================= *)
(** ** Keys and prefixes *)

Lemma startsWith_app b key : startsWith b (b +:+ key) = true.
Proof.
  induction b as [|c b IH]; simpl; [by destruct key|].
  by rewrite decide_True.
Qed.

Lemma startsWith_inv b key : startsWith b key = true -> exists k, key = b +:+ k.
Proof.
  revert key. induction b as [|c b IH]; intros key H.
  - by exists key.
  - destruct key as [|d key]; [done|]. simpl in H.
    destruct (decide (c = d)) as [->|]; [|done].
    destruct (IH _ H) as [k ->]. by exists k.
Qed.

Lemma slice_app b key : slice (String.length b) (b +:+ key) = key.
Proof. induction b as [|c b IH]; [done|]. exact IH. Qed.

Lemma slice_0 key : slice 0 key = key.
Proof. done. Qed.

(** ** The in-memory storage *)

Lemma on_store_run {A} h (f : Store -> A * Store) (w : Heap) st :
  w !! h = Some st -> on_store h f w = (Returned (f st).1, <[h := (f st).2]> w).
Proof. intros H. unfold on_store. by rewrite H. Qed.

(** A method that only reads leaves the world as it was. *)
Lemma on_store_read {A} h (g : Store -> A) (w : Heap) st :
  w !! h = Some st -> on_store h (fun st => (g st, st)) w = (Returned (g st), w).
Proof.
  intros H. rewrite (on_store_run _ _ _ _ H). simpl. by rewrite insert_id.
Qed.

Lemma foldM_pure {S A B} (f : B -> A -> Eff S B) (g : B -> A -> B) xs acc s :
  (forall acc x, f acc x s = (Returned (g acc x), s)) ->
  foldM f acc xs s = (Returned (fold_left g xs acc), s).
Proof.
  intros Hf. revert acc. induction xs as [|x xs IH]; intros acc; [done|].
  cbn [foldM fold_left]. erewrite bind_returned by apply Hf. apply IH.
Qed.

(** The keys that [getKeys b] lists are the present keys that start with
    [b]. *)
Lemma memory_keys_spec (m : gmap string StorageValue) b key :
  key ∈ filter (fun key => startsWith b key = true) (map_to_list m).*1
  <-> startsWith b key = true /\ is_Some (m !! key).
Proof.
  rewrite list_elem_of_filter, list_elem_of_fmap. split.
  - intros [Hb ([k v] & -> & Hin)]. split; [done|].
    apply elem_of_map_to_list in Hin. by exists v.
  - intros [Hb [v Hv]]. split; [done|]. exists (key, v). split; [done|].
    by apply elem_of_map_to_list.
Qed.

(** The snapshot built from a list of keys that all start with [b] and are
    all present in [m]: a local name is bound to what [m] holds under
    [b] and that name. *)
Lemma collected_lookup (m : gmap string StorageValue) b keys (acc : Snapshot) k :
  Forall (fun key => startsWith b key = true /\ is_Some (m !! key)) keys ->
  fold_left (fun (snap : Snapshot) key =>
               <[slice (String.length b) key := default VNull (m !! key)]> snap)
            keys acc !! k
  = if decide (b +:+ k ∈ keys) then m !! (b +:+ k) else acc !! k.
Proof.
  revert acc. induction keys as [|key keys IH]; intros acc Hall.
  - cbn [fold_left]. case_decide as Hin; [|done]. by apply not_elem_of_nil in Hin.
  - apply Forall_cons in Hall as [[Hb [v Hv]] Hall]. cbn [fold_left].
    rewrite (IH _ Hall). apply startsWith_inv in Hb as [k0 ->].
    rewrite slice_app, Hv. cbn [default].
    destruct (decide (k0 = k)) as [->|Hne].
    + rewrite lookup_insert_eq, Hv.
      rewrite (decide_True _ _ (list_elem_of_here (b +:+ k) keys)).
      by case_decide.
    + rewrite lookup_insert_ne by done.
      destruct (decide (b +:+ k ∈ keys)) as [Hin|Hnin].
      * rewrite decide_True; [done|]. by apply list_elem_of_further.
      * rewrite decide_False; [done|].
        intros [Heq|?]%elem_of_cons; [|done].
        by apply (inj (String.app b)) in Heq.
Qed.

(** [take(base)] on the in-memory storage reads without writing, and the
    snapshot binds a local name exactly when the storage holds the key
    [base] and that name, to the same value. *)
Lemma take_snapshot_memory h b (w : Heap) st :
  w !! h = Some st ->
  exists snap : Snapshot,
    take_snapshot (memory_storage h) b w = (Returned snap, w)
    /\ forall k, snap !! k = items st !! (b +:+ k).
Proof.
  intros Hw. unfold take_snapshot. cbn [getKeys getItem memory_storage].
  eexists. split.
  - erewrite bind_returned by (by apply on_store_read).
    apply (foldM_pure _
             (fun (snap : Snapshot) key =>
                <[slice (String.length b) key := default VNull (items st !! key)]> snap)).
    intros acc x. erewrite bind_returned by (by apply on_store_read). done.
  - intros k. rewrite collected_lookup.
    + case_decide as Hin; [done|].
      rewrite memory_keys_spec, startsWith_app in Hin.
      destruct (items st !! (b +:+ k)) as [v|] eqn:Hk; [|done].
      destruct Hin. split; [done|]. by exists v.
    + apply Forall_forall. intros key. by rewrite memory_keys_spec.
Qed.

(** Writing a list of entries back under [b]: a key outside the list keeps
    its binding. *)
Lemma written_other b (l : list (string * StorageValue)) (m : gmap string StorageValue) q :
  (forall k v, (k, v) ∈ l -> q <> b +:+ k) ->
  fold_left (fun m kv => <[b +:+ kv.1 := kv.2]> m) l m !! q = m !! q.
Proof.
  revert m. induction l as [|[k v] l IH]; intros m Hq; [done|].
  cbn [fold_left]. rewrite IH.
  - cbn. apply lookup_insert_ne. intros Heq. apply (Hq k v); [apply list_elem_of_here|done].
  - intros k' v' Hin. apply (Hq k' v'). by apply list_elem_of_further.
Qed.

(** Writing a list of entries back under [b]: an entry of the list, when
    no name occurs twice, ends up bound under [b] and its name. *)
Lemma written_lookup b (l : list (string * StorageValue)) (m : gmap string StorageValue) k v :
  NoDup l.*1 -> (k, v) ∈ l ->
  fold_left (fun m kv => <[b +:+ kv.1 := kv.2]> m) l m !! (b +:+ k) = Some v.
Proof.
  revert m. induction l as [|[k0 v0] l IH]; intros m Hnd Hin.
  - by apply not_elem_of_nil in Hin.
  - cbn in Hnd. apply NoDup_cons in Hnd as [Hk0 Hnd]. cbn [fold_left].
    apply elem_of_cons in Hin as [[= -> ->]|Hin]; [|by apply IH].
    rewrite written_other; [apply lookup_insert_eq|].
    intros k' v' Hin' Heq. apply (inj (String.app b)) in Heq as <-.
    apply Hk0. apply list_elem_of_fmap. by exists (k0, v').
Qed.

(** The restore loop on the in-memory storage: it always returns, it
    touches the entries only, and the entries are those of the store with
    the list written over them. *)
Lemma write_loop_memory h b (l : list (string * StorageValue)) (w : Heap) st :
  w !! h = Some st ->
  for_of l (fun kv => setItem (memory_storage h) (b +:+ kv.1) kv.2) w
  = (Returned tt,
     <[h := mkStore (fold_left (fun m kv => <[b +:+ kv.1 := kv.2]> m) l (items st))
                    (mounts st) (watching st) (disposed st)]> w).
Proof.
  revert w st. induction l as [|[k v] l IH]; intros w st Hw.
  - cbn. rewrite insert_id; [done|]. by destruct st.
  - cbn [for_of fold_left]. cbn [setItem memory_storage].
    erewrite bind_returned by (by apply on_store_run).
    erewrite IH by apply lookup_insert_eq. cbn.
    by rewrite insert_insert_eq.
Qed.

(** [restore(snapshot, base?)] on the in-memory storage. *)
Lemma restore_snapshot_memory h (snap : Snapshot) ob (w : Heap) st :
  w !! h = Some st ->
  exists st',
    restore_snapshot (memory_storage h) snap ob w = (Returned tt, <[h := st']> w)
    /\ (mounts st', watching st', disposed st') = (mounts st, watching st, disposed st)
    /\ (forall k v, snap !! k = Some v -> items st' !! (default "" ob +:+ k) = Some v)
    /\ (forall q, (forall k, q = default "" ob +:+ k -> snap !! k = None) ->
                  items st' !! q = items st !! q).
Proof.
  intros Hw. eexists. split; [by apply write_loop_memory|]. cbn. split_and!; [done| |].
  - intros k v Hk. apply written_lookup.
    + apply NoDup_fst_map_to_list.
    + by apply elem_of_map_to_list.
  - intros q Hq. apply written_other. intros k v Hin%elem_of_map_to_list ->.
    specialize (Hq k eq_refl). congruence.
Qed.

(* ================================================================= *)
(** ** The prefix factory and the snapshot tool on the in-memory engine *)

(** C5. A value written at [K] through the view [storagelyPrefix(P)] is
    what the raw handle reads at [P + K], and a value written at [P + K]
    through the raw handle is what the view reads at [K]. *)
Theorem prefixed_view_adds_prefix (h : nat) (w : Heap) (st : Store)
    (P K : string) (V : StorageValue) :
  w !! h = Some st ->
  let storagely := memory_storage h in
  let storagelyPrefix := createPrefixedStoragely MemoryUnstorage storagely in
  ((view <- storagelyPrefix P ;;
    setItem view K V ;;
    getItem storagely (P +:+ K)) w).1 = Returned V
  /\ ((setItem storagely (P +:+ K) V ;;
       view <- storagelyPrefix P ;;
       getItem view K) w).1 = Returned V.
Proof.
  intros Hw storagely storagelyPrefix. subst storagelyPrefix storagely.
  assert (((setItem (memory_storage h) (P +:+ K) V ;;
            getItem (memory_storage h) (P +:+ K)) w).1 = Returned V) as Hrw.
  { cbn [setItem getItem memory_storage].
    erewrite bind_returned by (by apply on_store_run).
    erewrite on_store_read by apply lookup_insert_eq.
    cbn. by rewrite lookup_insert_eq. }
  split; [exact Hrw|].
  cbn [setItem memory_storage]. erewrite bind_returned by (by apply on_store_run).
  cbn [setItem getItem memory_storage] in Hrw.
  erewrite bind_returned in Hrw by (by apply on_store_run).
  exact Hrw.
Qed.

Lemma prefixed_view_adds_prefix_witness :
  ((view <- createPrefixedStoragely MemoryUnstorage (memory_storage 0) "users:" ;;
    setItem view "u1" (VString "Alice") ;;
    getItem (memory_storage 0) ("users:" +:+ "u1")) one_storage).1
  = Returned (VString "Alice")
  /\ ((setItem (memory_storage 0) ("users:" +:+ "u1") (VString "Alice") ;;
       view <- createPrefixedStoragely MemoryUnstorage (memory_storage 0) "users:" ;;
       getItem view "u1") one_storage).1
     = Returned (VString "Alice").
Proof.
  apply (prefixed_view_adds_prefix 0 one_storage seeded_store).
  reflexivity.
Defined.

(** C6. Let the key [B + K] hold [v1]. Take a snapshot of [B], change the
    key (write [v2] to it, or remove it), restore the snapshot under [B]:
    the key reads [v1] again. *)
Theorem snapshot_restore_round_trip (h : nat) (w : Heap) (st : Store)
    (B K : string) (v1 v2 : StorageValue) :
  w !! h = Some st ->
  items st !! (B +:+ K) = Some v1 ->
  let storagely := memory_storage h in
  let storagelySnapshot := createSnapshotedStoragely MemoryUnstorage storagely in
  ((snap <- take storagelySnapshot B ;;
    setItem storagely (B +:+ K) v2 ;;
    restore storagelySnapshot snap (Some B) ;;
    getItem storagely (B +:+ K)) w).1 = Returned v1
  /\ ((snap <- take storagelySnapshot B ;;
       removeItem storagely (B +:+ K) ;;
       restore storagelySnapshot snap (Some B) ;;
       getItem storagely (B +:+ K)) w).1 = Returned v1.
Proof.
  intros Hw Hk storagely storagelySnapshot. subst storagely storagelySnapshot.
  destruct (take_snapshot_memory h B w st Hw) as (snap & Htake & Hsnap).
  assert (snap !! K = Some v1) as HK by (by rewrite Hsnap).
  cbn [take restore createSnapshotedStoragely snapshot restoreSnapshot MemoryUnstorage].
  split.
  - erewrite bind_returned by exact Htake.
    cbn [setItem memory_storage].
    erewrite bind_returned by (by apply on_store_run).
    edestruct (restore_snapshot_memory h snap (Some B)) as (st' & Hres & _ & Hin & _);
      [apply lookup_insert_eq|].
    erewrite bind_returned by exact Hres.
    cbn [getItem memory_storage]. erewrite on_store_read by apply lookup_insert_eq.
    cbn in Hin |- *. by rewrite (Hin K v1 HK).
  - erewrite bind_returned by exact Htake.
    cbn [removeItem memory_storage].
    erewrite bind_returned by (by apply on_store_run).
    edestruct (restore_snapshot_memory h snap (Some B)) as (st' & Hres & _ & Hin & _);
      [apply lookup_insert_eq|].
    erewrite bind_returned by exact Hres.
    cbn [getItem memory_storage]. erewrite on_store_read by apply lookup_insert_eq.
    cbn in Hin |- *. by rewrite (Hin K v1 HK).
Qed.

Lemma snapshot_restore_round_trip_witness :
  ((snap <- take (createSnapshotedStoragely MemoryUnstorage (memory_storage 0)) "" ;;
    setItem (memory_storage 0) ("" +:+ "foo") (VString "baz") ;;
    restore (createSnapshotedStoragely MemoryUnstorage (memory_storage 0)) snap (Some "") ;;
    getItem (memory_storage 0) ("" +:+ "foo")) one_storage).1
  = Returned (VString "bar")
  /\ ((snap <- take (createSnapshotedStoragely MemoryUnstorage (memory_storage 0)) "" ;;
       removeItem (memory_storage 0) ("" +:+ "foo") ;;
       restore (createSnapshotedStoragely MemoryUnstorage (memory_storage 0)) snap (Some "") ;;
       getItem (memory_storage 0) ("" +:+ "foo")) one_storage).1
     = Returned (VString "bar").
Proof.
  apply (snapshot_restore_round_trip 0 one_storage
           seeded_store
           "" "foo" (VString "bar") (VString "baz")).
  - reflexivity.
  - reflexivity.
Defined.

(** The scenario of the test suite: set [foo], snapshot the whole store,
    change [foo], restore without a base, read [foo]. *)
Example snapshot_restore_scenario :
  ((setItem (memory_storage 0) "foo" (VString "original") ;;
    snap <- take (createSnapshotedStoragely MemoryUnstorage (memory_storage 0)) "" ;;
    setItem (memory_storage 0) "foo" (VString "changed") ;;
    restore (createSnapshotedStoragely MemoryUnstorage (memory_storage 0)) snap None ;;
    getItem (memory_storage 0) "foo") one_storage).1
  = Returned (VString "original").
Proof. vm_compute. reflexivity. Qed.

(** The base is an argument of the restore, not a property of the
    snapshot: a snapshot of [users:] restored without a base is written at
    the root, and the key under [users:] keeps its new value. *)
Example restore_without_base_goes_to_root :
  ((setItem (memory_storage 0) "users:u1" (VString "Alice") ;;
    snap <- take (createSnapshotedStoragely MemoryUnstorage (memory_storage 0)) "users:" ;;
    setItem (memory_storage 0) "users:u1" (VString "Bob") ;;
    restore (createSnapshotedStoragely MemoryUnstorage (memory_storage 0)) snap None ;;
    under <- getItem (memory_storage 0) "users:u1" ;;
    root <- getItem (memory_storage 0) "u1" ;;
    ret (under, root)) one_storage).1
  = Returned (VString "Bob", VString "Alice").
Proof. vm_compute. reflexivity. Qed.

(** C7. [restore(S, B)] returns having written, for every name [k] that
    [S] binds, the value of [S] at the key [B + k], and nothing else: a
    key under [B] whose name [S] does not bind, and more generally any key
    that is not [B] followed by a name of [S], holds after the restore
    what it held before, present or absent. Nothing is deleted. *)
Theorem restore_overwrites_never_deletes (h : nat) (w : Heap) (st : Store)
    (S : Snapshot) (B : string) :
  w !! h = Some st ->
  let storagelySnapshot := createSnapshotedStoragely MemoryUnstorage (memory_storage h) in
  exists st',
    restore storagelySnapshot S (Some B) w = (Returned tt, <[h := st']> w)
    /\ (forall k v, S !! k = Some v -> items st' !! (B +:+ k) = Some v)
    /\ (forall k, S !! k = None -> items st' !! (B +:+ k) = items st !! (B +:+ k))
    /\ (forall q, (forall k, q = B +:+ k -> S !! k = None) ->
                  items st' !! q = items st !! q).
Proof.
  intros Hw storagelySnapshot.
  destruct (restore_snapshot_memory h S (Some B) w st Hw) as (st' & Hres & _ & Hin & Hout).
  exists st'. split_and!; [done|done| |done].
  intros k Hk. apply Hout. intros k' Heq. by apply (inj (String.app B)) in Heq as <-.
Qed.

Lemma restore_overwrites_never_deletes_witness :
  exists st',
    restore (createSnapshotedStoragely MemoryUnstorage (memory_storage 0))
            old_snapshot (Some "") one_storage
    = (Returned tt, <[0%nat := st']> one_storage)
    /\ (forall k v, old_snapshot !! k = Some v -> items st' !! ("" +:+ k) = Some v)
    /\ (forall k, old_snapshot !! k = None ->
                  items st' !! ("" +:+ k) = items seeded_store !! ("" +:+ k))
    /\ (forall q, (forall k, q = "" +:+ k -> old_snapshot !! k = None) ->
                  items st' !! q = items seeded_store !! q).
Proof.
  apply (restore_overwrites_never_deletes 0 one_storage seeded_store old_snapshot "").
  reflexivity.
Defined.

(** C7 on a run: a key written after the snapshot was taken is still there
    after the restore. *)
Example restore_keeps_later_keys :
  ((snap <- take (createSnapshotedStoragely MemoryUnstorage (memory_storage 0)) "" ;;
    setItem (memory_storage 0) "new" (VString "later") ;;
    restore (createSnapshotedStoragely MemoryUnstorage (memory_storage 0)) snap (Some "") ;;
    getItem (memory_storage 0) "new") one_storage).1
  = Returned (VString "later").
Proof. vm_compute. reflexivity. Qed.

(** C8. A call of the factory returns a view and does nothing else: it
    does not throw and it leaves the world as it was. Two views made by
    two calls with the same prefix work on the same keys of the one
    storage: a write through either is the raw write at [P + K], and it is
    read back through the other. The view of the empty prefix is the raw
    handle: its reads, writes, removals and key listings are the raw
    handle's, in every world. *)
Theorem prefix_factory_views (h : nat) (w : Heap) (st : Store) (P K : string)
    (V : StorageValue) :
  w !! h = Some st ->
  let storagely := memory_storage h in
  let storagelyPrefix := createPrefixedStoragely MemoryUnstorage storagely in
  (forall p x, exists view, storagelyPrefix p x = (Returned view, x))
  /\ ((first <- storagelyPrefix P ;; setItem first K V) w
      = setItem storagely (P +:+ K) V w)
  /\ ((first <- storagelyPrefix P ;;
       second <- storagelyPrefix P ;;
       setItem first K V ;;
       getItem second K) w).1 = Returned V
  /\ ((first <- storagelyPrefix P ;;
       second <- storagelyPrefix P ;;
       setItem second K V ;;
       getItem first K) w).1 = Returned V
  /\ (forall key v x,
        (view <- storagelyPrefix "" ;; getItem view key) x = getItem storagely key x
        /\ (view <- storagelyPrefix "" ;; setItem view key v) x = setItem storagely key v x
        /\ (view <- storagelyPrefix "" ;; removeItem view key) x = removeItem storagely key x
        /\ (view <- storagelyPrefix "" ;; getKeys view key) x = getKeys storagely key x).
Proof.
  intros Hw storagely storagelyPrefix. subst storagelyPrefix storagely.
  assert (((setItem (memory_storage h) (P +:+ K) V ;;
            getItem (memory_storage h) (P +:+ K)) w).1 = Returned V) as Hrw.
  { cbn [setItem getItem memory_storage].
    erewrite bind_returned by (by apply on_store_run).
    erewrite on_store_read by apply lookup_insert_eq.
    cbn. by rewrite lookup_insert_eq. }
  split_and!; [by eexists|done|exact Hrw|exact Hrw|].
  intros key v x. split_and!; [done|done|done|].
  cbn [createPrefixedStoragely prefixStorage MemoryUnstorage].
  erewrite bind_returned by done.
  cbn [getKeys prefixed]. unfold bind.
  change ("" +:+ key) with key. change (String.length "") with 0%nat.
  destruct (getKeys (memory_storage h) key x) as [[keys|e] x']; [|done].
  unfold ret. f_equal. f_equal.
  induction keys as [|k keys IH]; [done|]. cbn [map]. by rewrite slice_0, IH.
Qed.

Lemma prefix_factory_views_witness :
  let storagely := memory_storage 0 in
  let storagelyPrefix := createPrefixedStoragely MemoryUnstorage storagely in
  (forall p x, exists view, storagelyPrefix p x = (Returned view, x))
  /\ ((first <- storagelyPrefix "users:" ;; setItem first "u1" (VString "Alice")) one_storage
      = setItem storagely ("users:" +:+ "u1") (VString "Alice") one_storage)
  /\ ((first <- storagelyPrefix "users:" ;;
       second <- storagelyPrefix "users:" ;;
       setItem first "u1" (VString "Alice") ;;
       getItem second "u1") one_storage).1 = Returned (VString "Alice")
  /\ ((first <- storagelyPrefix "users:" ;;
       second <- storagelyPrefix "users:" ;;
       setItem second "u1" (VString "Alice") ;;
       getItem first "u1") one_storage).1 = Returned (VString "Alice")
  /\ (forall key v x,
        (view <- storagelyPrefix "" ;; getItem view key) x = getItem storagely key x
        /\ (view <- storagelyPrefix "" ;; setItem view key v) x = setItem storagely key v x
        /\ (view <- storagelyPrefix "" ;; removeItem view key) x = removeItem storagely key x
        /\ (view <- storagelyPrefix "" ;; getKeys view key) x = getKeys storagely key x).
Proof.
  apply (prefix_factory_views 0 one_storage seeded_store "users:" "u1" (VString "Alice")).
  reflexivity.
Defined.

(** The test of the suite for the factory: a write through the view of
    [users:] at [u1] is read by the raw handle at [users:u1]. *)
Example namespaced_write_scenario :
  ((users <- createPrefixedStoragely MemoryUnstorage (memory_storage 0) "users:" ;;
    setItem users "u1" (VString "Alice") ;;
    getItem (memory_storage 0) "users:u1") one_storage).1
  = Returned (VString "Alice").
Proof. vm_compute. reflexivity. Qed.

(* ================================================================= *)
(** ** More on the shutdown hook *)

(** The calls of a cleanup run: [unwatch] comes first, the callback is not
    among them, and [dispose] is nowhere but in the last place. *)
Lemma cleanup_run_ends r evs :
  cleanup_run r evs ->
  head (calls evs) = Some CallUnwatch
  /\ (CallClose ∉ calls evs)
  /\ evs <> []
  /\ (CallDispose ∉ removelast (calls evs)).
Proof.
  assert (forall ms, CallClose ∉ calls (map unmounted ms)) as Hnc.
  { intros ms. rewrite calls_unmounted. intros (m & H & _)%list_elem_of_fmap. discriminate H. }
  destruct 1 as [e|e|e before m after|e ms|ms];
    (split; [done|split; [|split; [done|]]]).
  - absent_call.
  - cbn. absent_call.
  - absent_call.
  - cbn. absent_call.
  - cbn. rewrite calls_app. rewrite !not_elem_of_cons, not_elem_of_app.
    split_and!; [done..|apply Hnc|absent_call].
  - rewrite !app_assoc, calls_app. cbn [calls map]. rewrite removelast_last.
    rewrite calls_app. cbn. rewrite !not_elem_of_cons.
    split_and!; [done..|apply dispose_not_unmounted].
  - cbn. rewrite calls_app. rewrite !not_elem_of_cons, not_elem_of_app.
    split_and!; [done..|apply Hnc|absent_call].
  - rewrite !app_assoc, calls_app. cbn [calls map]. rewrite removelast_last.
    rewrite calls_app. cbn. rewrite !not_elem_of_cons.
    split_and!; [done..|apply dispose_not_unmounted].
  - cbn. rewrite calls_app. rewrite !not_elem_of_cons, not_elem_of_app.
    split_and!; [done..|apply Hnc|absent_call].
  - rewrite !app_assoc, calls_app. cbn [calls map]. rewrite removelast_last.
    rewrite calls_app. cbn. rewrite !not_elem_of_cons.
    split_and!; [done..|apply dispose_not_unmounted].
Qed.

(** In every shutdown the [close] callback, when one was supplied, is
    called exactly once and before any method of the storage; when none
    was supplied no callback call is made. The first method of the storage
    that is called is [unwatch], whatever the callback did. *)
Theorem close_called_once_and_first {S} (storagely : Storage S)
    (opts : FastifyStoragelyOptions S) (w : S) :
  let log := (shutdown storagely opts w).2.2 in
  exists rest,
    calls log = match close opts with Some _ => [CallClose] | None => [] end ++ rest
    /\ (CallClose ∉ rest)
    /\ head rest = Some CallUnwatch.
Proof.
  destruct (shutdown_run storagely opts w) as (rc & rf & w1 & w' & evs & _ & -> & Hrun).
  cbn zeta. cbn [fst snd].
  destruct (close_events_read opts rc evs) as (-> & _ & _).
  destruct (cleanup_run_ends _ _ Hrun) as (Hhead & Hnc & _ & _).
  by exists (calls evs).
Qed.

(** In every shutdown [dispose] is called at most once, and no call
    follows it: it occurs nowhere in the calls but in the last place. The
    hook never uses the handle after disposing it. *)
Theorem nothing_after_dispose {S} (storagely : Storage S)
    (opts : FastifyStoragelyOptions S) (w : S) :
  let log := (shutdown storagely opts w).2.2 in
  CallDispose ∉ removelast (calls log).
Proof.
  destruct (shutdown_run storagely opts w) as (rc & rf & w1 & w' & evs & _ & -> & Hrun).
  cbn zeta. cbn [fst snd].
  destruct (close_events_read opts rc evs) as (-> & _ & _).
  destruct (cleanup_run_ends _ _ Hrun) as (_ & _ & Hne & Hlast).
  rewrite removelast_app by (by destruct evs).
  apply not_elem_of_app. split; [|done].
  destruct (close opts); absent_call.
Qed.

(** A shutdown in which the callback returns and the cleanup block
    completes: the callback was called, then [unwatch], [getMounts(''),]
    [unmount(base, true)] for every mount returned and [dispose], and the
    hook returns, in the world that the cleanup left. *)
Theorem close_success_full_cleanup {S} (storagely : Storage S)
    (opts : FastifyStoragelyOptions S) (f : Eff S unit) (w w1 w2 : S) :
  close opts = Some f ->
  f w = (Returned tt, w1) ->
  cleanup storagely w1 = (Returned tt, w2) ->
  onClose storagely opts w = (Returned tt, w2)
  /\ exists log,
       shutdown storagely opts w = (Returned tt, (w2, log))
       /\ calls log = CallClose :: cleanup_calls (mounts_of log)
       /\ close_raised log = None
       /\ cleanup_raised log = None.
Proof.
  intros Hclose Hf Hc. split.
  - unfold onClose, call_close. rewrite Hclose.
    by rewrite (try_finally_settle _ _ _ _ _ _ _ Hf Hc).
  - destruct (cleanup_returned storagely w1 w2 [mkEvent CallClose Done] Hc) as [ms Hs].
    eexists. split.
    + unfold shutdown, onClose, call_close, spied_options. simpl. rewrite Hclose. simpl.
      etrans; [eapply try_finally_settle; [by apply spy_returned|exact Hs]|done].
    + unfold close_raised, cleanup_raised, cleanup_calls. simpl.
      rewrite !first_raised_unmounted, calls_app, calls_unmounted. done.
Qed.

Lemma close_success_full_cleanup_witness :
  onClose (memory_storage 0) quiet_callback one_storage
  = (Returned tt, (cleanup (memory_storage 0) one_storage).2)
  /\ exists log,
       shutdown (memory_storage 0) quiet_callback one_storage
       = (Returned tt, ((cleanup (memory_storage 0) one_storage).2, log))
       /\ calls log = CallClose :: cleanup_calls (mounts_of log)
       /\ close_raised log = None
       /\ cleanup_raised log = None.
Proof.
  apply (close_success_full_cleanup (memory_storage 0) quiet_callback
           (ret tt) one_storage one_storage).
  - reflexivity.
  - reflexivity.
  - vm_compute. reflexivity.
Defined.

(* ================================================================= *)
(** ** More on registration *)

(** Registration binds three names and no other: a name that is not
    [storagely], [storagelyPrefix] or [storagelySnapshot] has, on the
    server handed to [done], the decoration it had before, on both
    extension points, and the hooks registered before are still there, in
    order, with the plugin's one hook after them. The world handed to
    [done] is the one [createStorage] left: registration calls neither the
    [close] callback nor a method of the storage. *)
Theorem registration_touches_three_names {S} (U : Unstorage S) opts done (a : App S)
    storagely w1 :
  createStorage U (storage_options opts) (world a) = (Returned storagely, w1) ->
  exists f',
    plugin U opts done a = done (mkApp f' w1)
    /\ (forall name,
          name ∉ ["storagely"; "storagelyPrefix"; "storagelySnapshot"] ->
          decorators f' !! name = decorators (server a) !! name
          /\ requestDecorators f' !! name = requestDecorators (server a) !! name)
    /\ onCloseHooks f' = onCloseHooks (server a) ++ [onClose storagely opts].
Proof.
  intros Hc. eexists. split; [by apply plugin_returned|]. split; [|done].
  intros name Hname. cbn [decorators requestDecorators].
  apply not_elem_of_cons in Hname as [H1 Hname].
  apply not_elem_of_cons in Hname as [H2 Hname].
  apply not_elem_of_cons in Hname as [H3 _].
  by rewrite !lookup_insert_ne.
Qed.

Lemma registration_touches_three_names_witness :
  exists f',
    plugin MemoryUnstorage quiet_callback (ret tt) (mkApp bare_server one_storage)
    = ret tt (mkApp f' (<[1%nat := mkStore ∅ [mkMount "" "memory"] false false]> one_storage))
    /\ (forall name,
          name ∉ ["storagely"; "storagelyPrefix"; "storagelySnapshot"] ->
          decorators f' !! name = decorators bare_server !! name
          /\ requestDecorators f' !! name = requestDecorators bare_server !! name)
    /\ onCloseHooks f'
       = onCloseHooks bare_server ++ [onClose (memory_storage 1) quiet_callback].
Proof.
  apply (registration_touches_three_names MemoryUnstorage quiet_callback (ret tt)
           (mkApp bare_server one_storage) (memory_storage 1)).
  vm_compute. reflexivity.
Defined.

(** The hook that registration leaves last is the shutdown of the very
    storage that [fastify.storagely] resolves to, with the options of the
    registration; the prefix factory and the snapshot tool are bound to
    that storage too. What the decorations expose is what shutdown
    disposes. *)
Theorem hook_closes_decorated_storage {S} (U : Unstorage S) opts done (a : App S)
    storagely w1 :
  createStorage U (storage_options opts) (world a) = (Returned storagely, w1) ->
  exists f',
    plugin U opts done a = done (mkApp f' w1)
    /\ forall s,
         instance_get f' "storagely" = Some (DStorage s) ->
         last (onCloseHooks f') = Some (onClose s opts)
         /\ instance_get f' "storagelyPrefix" = Some (DPrefix (createPrefixedStoragely U s))
         /\ instance_get f' "storagelySnapshot"
            = Some (DSnapshot (createSnapshotedStoragely U s)).
Proof.
  intros Hc. eexists. split; [by apply plugin_returned|].
  intros s. unfold instance_get. cbn [decorators onCloseHooks].
  rewrite 2!lookup_insert_ne by done. rewrite lookup_insert_eq. cbn.
  intros [= <-]. split_and!.
  - apply last_snoc.
  - rewrite lookup_insert_ne by done. by rewrite lookup_insert_eq.
  - by rewrite lookup_insert_eq.
Qed.

Lemma hook_closes_decorated_storage_witness :
  exists f',
    plugin MemoryUnstorage quiet_callback (ret tt) (mkApp bare_server one_storage)
    = ret tt (mkApp f' (<[1%nat := mkStore ∅ [mkMount "" "memory"] false false]> one_storage))
    /\ forall s,
         instance_get f' "storagely" = Some (DStorage s) ->
         last (onCloseHooks f') = Some (onClose s quiet_callback)
         /\ instance_get f' "storagelyPrefix"
            = Some (DPrefix (createPrefixedStoragely MemoryUnstorage s))
         /\ instance_get f' "storagelySnapshot"
            = Some (DSnapshot (createSnapshotedStoragely MemoryUnstorage s)).
Proof.
  apply (hook_closes_decorated_storage MemoryUnstorage quiet_callback (ret tt)
           (mkApp bare_server one_storage) (memory_storage 1)).
  vm_compute. reflexivity.
Defined.

(* ================================================================= *)
(** ** The build entries *)

Lemma string_length_app (s1 s2 : string) :
  String.length (s1 +:+ s2) = (String.length s1 + String.length s2)%nat.
Proof.
  induction s1 as [|c s1 IH]; [done|].
  change (S (String.length (s1 +:+ s2)) = S (String.length s1 + String.length s2)).
  by f_equal.
Qed.

(** The pattern matches three characters and no more. *)
Lemma is_dot_ts_long c s : 3 <= String.length s -> is_dot_ts (String c s) = false.
Proof.
  destruct s as [|a [|b [|d s]]]; cbn; intros H; first [lia|done].
Qed.

Lemma is_dot_ts_length s : is_dot_ts s = true -> String.length s = 3%nat.
Proof. destruct s as [|a [|b [|d [|e s]]]]; done. Qed.

(** The extension is cut off, whatever the case of its letters. *)
Lemma strip_ts_app stem ext : is_dot_ts ext = true -> strip_ts (stem +:+ ext) = stem.
Proof.
  intros Hext. induction stem as [|c stem IH].
  - change ("" +:+ ext) with ext. destruct ext; cbn [strip_ts]; by rewrite ?Hext.
  - change (String c stem +:+ ext) with (String c (stem +:+ ext)).
    cbn [strip_ts]. rewrite is_dot_ts_long.
    + by rewrite IH.
    + rewrite string_length_app, (is_dot_ts_length _ Hext). lia.
Qed.

(** A name the pattern does not match is left as it is. *)
Lemma strip_ts_id file : ends_in_ts file = false -> strip_ts file = file.
Proof.
  induction file as [|c file IH]; [done|].
  cbn [ends_in_ts strip_ts]. intros [H1 H2]%orb_false_elim.
  rewrite H1. by rewrite IH.
Qed.

(** One file of [src/drivers]. A file [stem.ts], in any case of the
    extension, is entered as [drivers/stem] with the source
    [src/drivers/stem.ts]; when the extension is in lower case that source
    is the file itself. A file with another or no extension keeps its
    whole name in the entry, and its source is its own path with [.ts]
    added. *)
Theorem driver_entry_of_file :
  (forall stem ext,
      is_dot_ts ext = true ->
      driver_entry (stem +:+ ext)
      = ("drivers/" +:+ stem, "src/drivers/" +:+ stem +:+ ".ts"))
  /\ (forall stem,
        driver_entry (stem +:+ ".ts")
        = ("drivers/" +:+ stem, "src/drivers/" +:+ (stem +:+ ".ts")))
  /\ (forall file,
        ends_in_ts file = false ->
        driver_entry file
        = ("drivers/" +:+ file, "src/drivers/" +:+ file +:+ ".ts")).
Proof.
  split_and!.
  - intros stem ext Hext. unfold driver_entry. by rewrite (strip_ts_app _ _ Hext).
  - intros stem. unfold driver_entry. by rewrite (strip_ts_app stem ".ts").
  - intros file Hfile. unfold driver_entry. by rewrite (strip_ts_id _ Hfile).
Qed.

(** The entries of three files: a driver, one with the extension in upper
    case, and one that is not a TypeScript file. *)
Example driver_entry_runs :
  map driver_entry ["memory.ts"; "Redis.TS"; "README.md"]
  = [("drivers/memory", "src/drivers/memory.ts");
     ("drivers/Redis", "src/drivers/Redis.ts");
     ("drivers/README.md", "src/drivers/README.md.ts")].
Proof. reflexivity. Qed.

(** [Object.fromEntries] over the entries: a key is bound exactly when it
    is the key of some file of the listing, and then to the source made
    from that key, so it does not matter which of two files with one key
    comes later. *)
Lemma entries_lookup listing (m : gmap string string) k :
  fold_left (fun m kv => <[kv.1 := kv.2]> m) (map driver_entry listing) m !! k
  = if decide (k ∈ map (fun file => "drivers/" +:+ strip_ts file) listing)
    then Some ("src/" +:+ k +:+ ".ts")
    else m !! k.
Proof.
  revert m. induction listing as [|file listing IH]; intros m.
  - cbn [map fold_left]. case_decide as Hin; [|done]. by apply not_elem_of_nil in Hin.
  - cbn [map fold_left]. rewrite IH. cbn [driver_entry fst snd].
    destruct (decide (k ∈ map (fun file => "drivers/" +:+ strip_ts file) listing))
      as [Hin|Hnin].
    + rewrite decide_True; [done|]. by apply list_elem_of_further.
    + destruct (decide (k = "drivers/" +:+ strip_ts file)) as [->|Hne].
      * rewrite lookup_insert_eq. rewrite decide_True; [done|]. apply list_elem_of_here.
      * rewrite lookup_insert_ne by done. rewrite decide_False; [done|].
        by intros [?|?]%elem_of_cons.
Qed.

(** The input of the build. The plugin's own entry [index] is always
    there and is never replaced by a file of the directory; every file is
    entered under [drivers/] and its name without the extension; and the
    input has no other entry. Every entry's source is [src/], its key and
    [.ts]. *)
Theorem build_input_entries (listing : list string) :
  build_input listing !! "index" = Some "src/index.ts"
  /\ (forall file,
        file ∈ listing ->
        build_input listing !! ("drivers/" +:+ strip_ts file)
        = Some ("src/drivers/" +:+ strip_ts file +:+ ".ts"))
  /\ (forall k v,
        build_input listing !! k = Some v ->
        v = "src/" +:+ k +:+ ".ts"
        /\ (k = "index" \/ exists file, file ∈ listing /\ k = "drivers/" +:+ strip_ts file)).
Proof.
  unfold build_input, drivers. split_and!.
  - rewrite lookup_union_r; [done|].
    rewrite entries_lookup. rewrite decide_False; [done|].
    intros (file & H & _)%list_elem_of_fmap. discriminate H.
  - intros file Hin. apply lookup_union_Some_l.
    rewrite entries_lookup. rewrite decide_True; [done|].
    apply list_elem_of_fmap. by exists file.
  - intros k v [Hk|[_ Hk]]%lookup_union_Some_raw.
    + rewrite entries_lookup in Hk. case_decide as Hin; [|done].
      injection Hk as <-. split; [done|]. right.
      apply list_elem_of_fmap in Hin as (file & -> & Hin). by exists file.
    + apply lookup_singleton_Some in Hk as [<- <-]. split; [done|by left].
Qed.

(** The input for a directory with two spellings of one driver and a file
    named like the plugin's entry: three entries, the plugin's own among
    them. *)
Example build_input_runs :
  let input := build_input ["memory.ts"; "memory.TS"; "index.ts"] in
  size input = 3%nat
  /\ input !! "index" = Some "src/index.ts"
  /\ input !! "drivers/memory" = Some "src/drivers/memory.ts"
  /\ input !! "drivers/index" = Some "src/drivers/index.ts".
Proof. vm_compute. done. Qed.
